(** * imgmv: a shallow embedding of src/main.rs

    The program lists the regular files of a source directory, pairs each
    with a destination path [{prefix}_{index}{.ext}] and moves, copies or
    (in a dry run) only reports each pair.  Paths are Unix path strings, the
    file system is a record of finite maps, and the [log] crate macros and
    [println!] become records appended to an output trace. *)

From Stdlib Require Import Ascii String List.
From stdpp Require Import base gmap strings pretty list.
Import ListNotations.
Open Scope string_scope.

(** ** Path strings ([std::path::Path] on Unix) *)
Module PathModel.

(** Split a string at every occurrence of [c]. *)
Fixpoint split_on (c : ascii) (s : string) : list string :=
  match s with
  | EmptyString => [""]
  | String x rest =>
      if Ascii.eqb x c then "" :: split_on c rest
      else match split_on c rest with
           | [] => [String x ""]
           | w :: ws => String x w :: ws
           end
  end.

Fixpoint last_opt {A} (l : list A) : option A :=
  match l with
  | [] => None
  | [x] => Some x
  | _ :: l' => last_opt l'
  end.

(** [Path::file_name]: the last component when it is a normal one.  The
    component iterator drops empty components (repeated or trailing
    separators) and [.] components; a trailing [..], the root and a lone [.]
    have no file name. *)
Definition file_name (p : string) : option string :=
  match last_opt (List.filter (fun c => negb (String.eqb c "" || String.eqb c "."))
                         (split_on "/" p)) with
  | Some c => if String.eqb c ".." then None else Some c
  | None => None
  end.

(** Split at the last occurrence of [c]: [s.rsplitn(2, c)] read as
    (before, after). *)
Fixpoint last_split (c : ascii) (s : string) : option (string * string) :=
  match s with
  | EmptyString => None
  | String x rest =>
      match last_split c rest with
      | Some (b, a) => Some (String x b, a)
      | None => if Ascii.eqb x c then Some ("", rest) else None
      end
  end.

Definition last_dot_split : string -> option (string * string) := last_split ".".

(** [rsplit_file_at_dot] of the standard library. *)
Definition rsplit_file_at_dot (file : string) : option string * option string :=
  if String.eqb file ".." then (Some file, None)
  else match last_dot_split file with
       | None => (None, Some file)
       | Some (before, after) =>
           if String.eqb before "" then (Some file, None)
           else (Some before, Some after)
       end.

(** [Path::extension]: [file_name().map(rsplit_file_at_dot)
    .and_then(|(before, after)| before.and(after))]. *)
Definition extension (p : string) : option string :=
  match file_name p with
  | None => None
  | Some f =>
      match rsplit_file_at_dot f with
      | (Some _, after) => after
      | (None, _) => None
      end
  end.

Definition is_sep_byte (c : ascii) : bool := Ascii.eqb c "/".

Definition last_char (s : string) : option ascii :=
  match s with
  | EmptyString => None
  | _ => String.get (String.length s - 1) s
  end.

(** [PathBuf::join] / [PathBuf::push] on Unix: an absolute argument
    replaces the path; otherwise a separator is inserted when the path does
    not already end with one. *)
Definition join (base p : string) : string :=
  match p with
  | String c _ => if is_sep_byte c then p
                  else match last_char base with
                       | Some l => if is_sep_byte l then base ++ p
                                   else base ++ "/" ++ p
                       | None => base ++ p
                       end
  | EmptyString =>
      match last_char base with
      | Some l => if is_sep_byte l then base else base ++ "/"
      | None => base
      end
  end.

End PathModel.
Import PathModel.

(** ** Lossy UTF-8 conversion ([to_string_lossy]) *)
Module Utf8.

Definition byte (b : ascii) : nat := nat_of_ascii b.

(** [utf8_char_width]: the length announced by a leading byte, 0 for a
    byte that cannot start a character. *)
Definition utf8_char_width (b : ascii) : nat :=
  let n := byte b in
  if Nat.ltb n 128 then 1
  else if Nat.ltb n 194 then 0
  else if Nat.ltb n 224 then 2
  else if Nat.ltb n 240 then 3
  else if Nat.ltb n 245 then 4
  else 0.

(** [(b as i8) < -64]: a continuation byte [0x80..=0xBF]. *)
Definition is_cont (b : ascii) : bool := Nat.leb 128 (byte b) && Nat.ltb (byte b) 192.

Definition in_range (lo hi : nat) (b : ascii) : bool := Nat.leb lo (byte b) && Nat.leb (byte b) hi.

(** The second byte accepted after a three-byte leader. *)
Definition second3 (first b : ascii) : bool :=
  let n := byte first in
  if Nat.eqb n 224 then in_range 160 191 b
  else if Nat.eqb n 237 then in_range 128 159 b
  else is_cont b.

(** The second byte accepted after a four-byte leader. *)
Definition second4 (first b : ascii) : bool :=
  let n := byte first in
  if Nat.eqb n 240 then in_range 144 191 b
  else if Nat.eqb n 244 then in_range 128 143 b
  else is_cont b.

(** U+FFFD in UTF-8. *)
Definition replacement : string :=
  String (ascii_of_nat 239) (String (ascii_of_nat 191) (String (ascii_of_nat 189) EmptyString)).

(** [String::from_utf8_lossy] (what [OsStr::to_string_lossy] does on Unix),
    following the [Utf8Chunks] decoder: a byte sequence that stops being a
    valid character is replaced by one U+FFFD, and decoding resumes at the
    byte that broke it. *)
Fixpoint from_utf8_lossy (s : string) : string :=
  match s with
  | EmptyString => EmptyString
  | String b rest =>
      match utf8_char_width b with
      | 1 => String b (from_utf8_lossy rest)
      | 2 =>
          match rest with
          | String b1 rest1 =>
              if is_cont b1 then String b (String b1 (from_utf8_lossy rest1))
              else replacement ++ from_utf8_lossy rest
          | EmptyString => replacement ++ from_utf8_lossy rest
          end
      | 3 =>
          match rest with
          | String b1 rest1 =>
              if second3 b b1 then
                match rest1 with
                | String b2 rest2 =>
                    if is_cont b2 then String b (String b1 (String b2 (from_utf8_lossy rest2)))
                    else replacement ++ from_utf8_lossy rest1
                | EmptyString => replacement ++ from_utf8_lossy rest1
                end
              else replacement ++ from_utf8_lossy rest
          | EmptyString => replacement ++ from_utf8_lossy rest
          end
      | 4 =>
          match rest with
          | String b1 rest1 =>
              if second4 b b1 then
                match rest1 with
                | String b2 rest2 =>
                    if is_cont b2 then
                      match rest2 with
                      | String b3 rest3 =>
                          if is_cont b3 then
                            String b (String b1 (String b2 (String b3 (from_utf8_lossy rest3))))
                          else replacement ++ from_utf8_lossy rest2
                      | EmptyString => replacement ++ from_utf8_lossy rest2
                      end
                    else replacement ++ from_utf8_lossy rest1
                | EmptyString => replacement ++ from_utf8_lossy rest1
                end
              else replacement ++ from_utf8_lossy rest
          | EmptyString => replacement ++ from_utf8_lossy rest
          end
      | _ => replacement ++ from_utf8_lossy rest
      end
  end.

(** [str::from_utf8(s).is_ok()]: the same decoder, never meeting an invalid
    sequence. *)
Fixpoint utf8_valid (s : string) : bool :=
  match s with
  | EmptyString => true
  | String b rest =>
      match utf8_char_width b with
      | 1 => utf8_valid rest
      | 2 =>
          match rest with
          | String b1 rest1 => is_cont b1 && utf8_valid rest1
          | EmptyString => false
          end
      | 3 =>
          match rest with
          | String b1 (String b2 rest2) => second3 b b1 && is_cont b2 && utf8_valid rest2
          | _ => false
          end
      | 4 =>
          match rest with
          | String b1 (String b2 (String b3 rest3)) =>
              second4 b b1 && is_cont b2 && is_cont b3 && utf8_valid rest3
          | _ => false
          end
      | _ => false
      end
  end.

End Utf8.
Import Utf8.

(** ** Pair generation ([generate_source_destination_pairs]) *)

(** The [format!("{}_{}{}", prefix, index, ext)] file name. *)
Definition destination_name (prefix : string) (index : nat) (source_file : string)
    : string :=
  prefix ++ "_" ++ pretty index ++
  match extension source_file with
  | Some ext => "." ++ from_utf8_lossy ext
  | None => ""
  end.

(** [enumerate] from a given starting index. *)
Fixpoint enumerate_from {A} (k : nat) (l : list A) : list (nat * A) :=
  match l with
  | [] => []
  | x :: l' => (k, x) :: enumerate_from (S k) l'
  end.

Definition generate_source_destination_pairs
    (source_files : list string) (destination_path : string) (prefix : string)
    : list (string * string) :=
  map (fun '(index, source_file) =>
         (source_file, join destination_path (destination_name prefix index source_file)))
      (enumerate_from 0 source_files).

(** ** Results, I/O errors and the file system *)

Inductive result (A E : Type) : Type :=
| Ok (a : A)
| Err (e : E).
Arguments Ok {A E} a.
Arguments Err {A E} e.

(** The kinds of [std::io::Error] the program can meet. *)
Inductive io_error : Type :=
| NotFound
| PermissionDenied
| CrossesDevices
| OtherIo (msg : string).

(** [std::fs::FileType], as seen by [DirEntry::file_type] (no symlink is
    followed). *)
Inductive file_type : Type :=
| FtFile
| FtDir
| FtSymlink
| FtOther.   (* sockets, FIFOs, devices *)

Definition is_file (t : file_type) : bool :=
  match t with FtFile => true | _ => false end.

(** A directory entry as yielded by [ReadDir]: its file name and the outcome
    of querying its type. *)
Record dir_entry : Type := DirEntry {
  de_name : string;
  de_file_type : result file_type io_error;
}.

(** Directory entries are keyed by the canonical path of their directory
    and their own name: every path string that reaches the same entry
    (through [.] or [..] components, repeated separators or symbolic links
    among its directories) gives the same key. *)
Definition entry_key : Type := (string * string)%type.

(** What a directory entry holds: a hard link to a regular file (its inode
    number), a symbolic link (its target as written) or a directory. *)
Inductive node : Type :=
| Reg (ino : nat)
| Sym (target : string)
| Dir.

(** The file system the program sees.
    - [fs_entries]: the directory entries; two entries holding the same
      inode are hard links to one file;
    - [fs_data]: the content of each inode;
    - [fs_readonly]: inodes the user may not open for writing;
    - [fs_writable]: directories (canonical paths) in which entries may be
      created or removed;
    - [fs_dev]: the device of each directory (0 when not listed);
    - [fs_full]: devices with no space left;
    - [fs_dirs]: what [read_dir] yields for a directory path: an error when the
      directory cannot be opened, otherwise the entry stream in listing order
      (each item an entry or a read error);
    - [fs_canon]: what [Path::canonicalize] resolves a path to. *)
Record FS : Type := MkFS {
  fs_entries : gmap entry_key node;
  fs_data : gmap nat string;
  fs_readonly : gset nat;
  fs_writable : gset string;
  fs_dev : gmap string nat;
  fs_full : gset nat;
  fs_dirs : gmap string (result (list (result dir_entry io_error)) io_error);
  fs_canon : gmap string string;
}.

Definition set_entries (fs : FS) (m : gmap entry_key node) : FS :=
  MkFS m (fs_data fs) (fs_readonly fs) (fs_writable fs) (fs_dev fs) (fs_full fs)
       (fs_dirs fs) (fs_canon fs).

Definition set_data (fs : FS) (m : gmap nat string) : FS :=
  MkFS (fs_entries fs) m (fs_readonly fs) (fs_writable fs) (fs_dev fs) (fs_full fs)
       (fs_dirs fs) (fs_canon fs).

Definition dev_of (fs : FS) (d : string) : nat := default 0 (fs_dev fs !! d).

(** Directory part of an absolute path (up to its last separator). *)
Definition dir_of (p : string) : string :=
  match last_split "/" p with
  | Some (b, _) => if String.eqb b "" then "/" else b
  | None => "."
  end.

(** [Path::canonicalize]. *)
Definition canonicalize (fs : FS) (p : string) : result string io_error :=
  match fs_canon fs !! p with
  | Some c => Ok c
  | None => Err NotFound
  end.

(** [fs::read_dir]: fails when the directory cannot be opened. *)
Definition read_dir (fs : FS) (p : string)
    : result (list (result dir_entry io_error)) io_error :=
  match fs_dirs fs !! p with
  | Some r => r
  | None => Err NotFound
  end.

(** The directory part and the last component of a path, as the kernel
    splits it when it looks the path up. *)
Definition parent_and_name (p : string) : string * string :=
  match last_split "/" p with
  | Some (b, a) => (if String.eqb b "" then "/" else b, a)
  | None => (".", p)
  end.

(** The entry a path names, without following a symbolic link in its last
    component: its directory is resolved as [canonicalize] resolves it. *)
Definition entry_key_of (fs : FS) (p : string) : result entry_key io_error :=
  let '(d, n) := parent_and_name p in
  if String.eqb n "" || String.eqb n "." || String.eqb n ".." then
    Err (OtherIo "not a file name")
  else match fs_canon fs !! d with
       | Some cd => Ok (cd, n)
       | None => Err NotFound
       end.

Definition is_absolute (p : string) : bool :=
  match p with String c _ => is_sep_byte c | EmptyString => false end.

(** The kernel follows at most 40 symbolic links in one lookup. *)
Definition max_links : nat := 40.

(** Look a path up, following symbolic links in its last component: the
    entry reached and what it holds ([None]: no such entry). *)
Fixpoint follow (fuel : nat) (fs : FS) (p : string)
    : result (entry_key * option node) io_error :=
  match entry_key_of fs p with
  | Err e => Err e
  | Ok k =>
      match fs_entries fs !! k with
      | Some (Sym t) =>
          match fuel with
          | 0 => Err (OtherIo "Too many levels of symbolic links")
          | S fuel' => follow fuel' fs (if is_absolute t then t else join k.1 t)
          end
      | o => Ok (k, o)
      end
  end.

(** [fs::read]: the content reached from a path. *)
Definition read_path (fs : FS) (p : string) : option string :=
  match follow max_links fs p with
  | Ok (_, Some (Reg i)) => fs_data fs !! i
  | _ => None
  end.

(** The entry a path names, its last component not followed. *)
Definition lookup_entry (fs : FS) (p : string) : option node :=
  match entry_key_of fs p with
  | Ok k => fs_entries fs !! k
  | Err _ => None
  end.

(** [rename(2)] sees one file behind its two names when they reach the same
    entry or two hard links to the same inode. *)
Definition same_file (fs : FS) (kf : entry_key) (nf : node) (kt : entry_key) : bool :=
  bool_decide (kf = kt) ||
  match nf, fs_entries fs !! kt with
  | Reg i, Some (Reg j) => Nat.eqb i j
  | _, _ => false
  end.

(** [fs::rename] (POSIX [rename(2)] on Linux): both names are looked up
    without following a final symbolic link; across devices it fails; when
    both reach the same file it succeeds and does nothing; otherwise the
    destination entry (replaced if present) takes over what the source entry
    held, and the source entry is removed.  The listing yields regular files
    only, and moving a directory is not modelled: the model refuses it. *)
Definition fs_rename (fs : FS) (from to : string) : FS * result unit io_error :=
  match entry_key_of fs from with
  | Err e => (fs, Err e)
  | Ok kf =>
      match fs_entries fs !! kf with
      | None => (fs, Err NotFound)
      | Some nf =>
          match entry_key_of fs to with
          | Err e => (fs, Err e)
          | Ok kt =>
              if negb (Nat.eqb (dev_of fs kf.1) (dev_of fs kt.1)) then (fs, Err CrossesDevices)
              else if same_file fs kf nf kt then (fs, Ok tt)
              else if negb (bool_decide (kf.1 ∈ fs_writable fs) &&
                            bool_decide (kt.1 ∈ fs_writable fs))
              then (fs, Err PermissionDenied)
              else match nf, fs_entries fs !! kt with
                   | Dir, _ => (fs, Err (OtherIo "moving a directory"))
                   | _, Some Dir => (fs, Err (OtherIo "Is a directory"))
                   | _, _ => (set_entries fs (<[kt := nf]> (delete kf (fs_entries fs))), Ok tt)
                   end
          end
      end
  end.

(** The copy loop of [fs::copy] once both files are open and the destination
    inode [j] truncated: the source inode [i] is read after the truncation
    (so it reads empty when [i = j]); on a full device nothing is written and
    the error is returned with the destination left truncated. *)
Definition write_copy (fs : FS) (i j : nat) (d : string) : FS * result unit io_error :=
  let truncated := <[j := ""]> (fs_data fs) in
  let content := default "" (truncated !! i) in
  if bool_decide (dev_of fs d ∈ fs_full fs) && negb (String.eqb content "") then
    (set_data fs truncated, Err (OtherIo "No space left on device"))
  else (set_data fs (<[j := content]> truncated), Ok tt).

(** [fs::copy] as the standard library does it on Linux: open [from] for
    reading (following symbolic links; it must be a regular file), open [to]
    for writing with [create] and [truncate] (following symbolic links, and
    creating the file a dangling link points to), then copy.  The byte
    count is dropped by [.and(Ok(()))]. *)
Definition fs_copy (fs : FS) (from to : string) : FS * result unit io_error :=
  match follow max_links fs from with
  | Err e => (fs, Err e)
  | Ok (_, None) => (fs, Err NotFound)
  | Ok (_, Some (Reg i)) =>
      match follow max_links fs to with
      | Err e => (fs, Err e)
      | Ok (kt, Some (Reg j)) =>
          if bool_decide (j ∈ fs_readonly fs) then (fs, Err PermissionDenied)
          else write_copy fs i j kt.1
      | Ok (kt, None) =>
          if bool_decide (kt.1 ∈ fs_writable fs) then
            let n := fresh (dom (fs_data fs)) in
            write_copy (set_data (set_entries fs (<[kt := Reg n]> (fs_entries fs)))
                                 (<[n := ""]> (fs_data fs))) i n kt.1
          else (fs, Err PermissionDenied)
      | Ok (_, Some Dir) => (fs, Err (OtherIo "Is a directory"))
      | Ok (_, Some (Sym _)) => (fs, Err (OtherIo "Too many levels of symbolic links"))
      end
  | Ok (_, Some _) =>
      (fs, Err (OtherIo "the source path is neither a regular file nor a symlink to a regular file"))
  end.

(** The two paths of a pair reach, on one device, the same entry or two
    hard links to one inode: [rename(2)] then sees a single file. *)
Definition same_file_paths (fs : FS) (p q : string) : bool :=
  match entry_key_of fs p, entry_key_of fs q with
  | Ok kp, Ok kq =>
      match fs_entries fs !! kp with
      | Some np => Nat.eqb (dev_of fs kp.1) (dev_of fs kq.1) && same_file fs kp np kq
      | None => false
      end
  | _, _ => false
  end.

(** The inode a path leads to when it is opened, links followed. *)
Definition opened_inode (fs : FS) (p : string) : option nat :=
  match follow max_links fs p with
  | Ok (_, Some (Reg j)) => Some j
  | _ => None
  end.

(** ** Output: [debug!], [warn!], [error!] and [println!] *)

Inductive level : Type := Debug | Warn | Error | Stdout.

Inductive message : Type :=
| MsgParam (what value : string)                   (* "Source path: {:?}" ... *)
| MsgIgnoring (path : string)                      (* "Ignoring non-file entry" *)
| MsgFileTypeFailed (path : string) (e : io_error) (* "Failed to get file type" *)
| MsgEntryError (e : io_error)                     (* "Error reading source directory entry" *)
| MsgOp (dry_run_prefix name source destination : string)  (* op_text *)
| MsgFailed (name source destination : string) (e : io_error). (* "Failed to {} ..." *)

Definition record := (level * message)%type.

Definition show_bool (b : bool) : string := if b then "true" else "false".

(** ** Listing ([get_source_files]) *)

(** The [filter_map] closure on one item of the entry stream of directory
    [root]; [entry.path()] is [root.join(entry.file_name())]. *)
Definition list_entry (root : string) (f : result dir_entry io_error)
    : option string * list record :=
  match f with
  | Ok entry =>
      match de_file_type entry with
      | Ok ft =>
          if is_file ft then (Some (join root (de_name entry)), [])
          else (None, [(Debug, MsgIgnoring (join root (de_name entry)))])
      | Err err => (None, [(Warn, MsgFileTypeFailed (join root (de_name entry)) err)])
      end
  | Err err => (None, [(Warn, MsgEntryError err)])
  end.

Fixpoint filter_map_entries (root : string) (l : list (result dir_entry io_error))
    : list string * list record :=
  match l with
  | [] => ([], [])
  | f :: rest =>
      let '(o, lg) := list_entry root f in
      let '(ps, lg') := filter_map_entries root rest in
      (match o with Some p => p :: ps | None => ps end, (lg ++ lg')%list)
  end.

Definition get_source_files (fs : FS) (source_path : string)
    : result (list string) io_error * list record :=
  match read_dir fs source_path with
  | Err e => (Err e, [])
  | Ok entries =>
      let '(ps, lg) := filter_map_entries source_path entries in (Ok ps, lg)
  end.

(** ** Transfer ([move_images]) *)

(** The closure [op]: one transfer attempt on the current file system; it
    returns the file system it leaves (a failed copy may already have
    truncated its destination) and the [io::Result] of the attempt. *)
Definition transfer_op := FS -> string -> string -> FS * result unit io_error.

Definition op_dry_run : transfer_op := fun fs _ _ => (fs, Ok tt).

(** [let op = if dry_run { .. } else if copy_file { .. } else { .. }]. *)
Definition select_op (dry_run copy_file : bool) : transfer_op :=
  if dry_run then op_dry_run
  else if copy_file then fs_copy
  else fs_rename.

(** The [for] loop over the pairs: the report line [op_text], then the
    attempt and its outcome.  A failure is logged and the loop goes on. *)
Fixpoint transfer_loop (op : transfer_op) (verbose : bool)
    (dry_run_prefix name : string) (fs : FS) (pairs : list (string * string))
    : FS * list record :=
  match pairs with
  | [] => (fs, [])
  | (source_file, destination_file) :: rest =>
      let op_text := MsgOp dry_run_prefix name source_file destination_file in
      let pre := if verbose then [] else [(Debug, op_text)] in
      let '(fs1, r) := op fs source_file destination_file in
      let outcome :=
        match r with
        | Ok _ => if verbose then (Stdout, op_text) else (Debug, op_text)
        | Err e => (Error, MsgFailed name source_file destination_file e)
        end in
      let '(fs2, lg) := transfer_loop op verbose dry_run_prefix name fs1 rest in
      (fs2, (pre ++ outcome :: lg)%list)
  end.

(** What a run leaves behind: its return value, the file system and the
    output trace. *)
Record outcome (E : Type) : Type := Outcome {
  o_result : result unit E;
  o_fs : FS;
  o_log : list record;
}.
Arguments Outcome {E}.
Arguments o_result {E}.
Arguments o_fs {E}.
Arguments o_log {E}.

Definition param_log (source_path destination_path : string) (copy_file : bool)
    (prefix : string) (verbose dry_run : bool) : list record :=
  [(Debug, MsgParam "Source path" source_path);
   (Debug, MsgParam "Destination path" destination_path);
   (Debug, MsgParam "Copy file" (show_bool copy_file));
   (Debug, MsgParam "Prefix" prefix);
   (Debug, MsgParam "Verbose" (show_bool verbose));
   (Debug, MsgParam "Dry run" (show_bool dry_run))].

Definition move_images (fs : FS) (source_path destination_path : string)
    (copy_file : bool) (prefix : string) (verbose dry_run : bool)
    : outcome io_error :=
  let params := param_log source_path destination_path copy_file prefix verbose dry_run in
  match get_source_files fs source_path with
  | (Err e, lg) => Outcome (Err e) fs (params ++ lg)%list
  | (Ok source_files, lg) =>
      let op := select_op dry_run copy_file in
      let dry_run_prefix := if dry_run then "[dry-run] " else "" in
      let name := if copy_file then "copy" else "move" in
      let '(fs', lg') :=
        transfer_loop op verbose dry_run_prefix name fs
          (generate_source_destination_pairs source_files destination_path prefix) in
      Outcome (Ok tt) fs' (params ++ lg ++ lg')%list
  end.

(** ** Command line and [main] *)

Record Args : Type := MkArgs {
  source : string;
  destination : string;
  copy : bool;
  prefix : option string;
  verbose : bool;
  dry_run : bool;
}.

Definition prefix_error_msg : string :=
  "Cannot determine prefix from source path. Supply a prefix using the --prefix option.".

(** [get_prefix]: the override, else the file name of the source path as
    typed (not canonicalized), through [to_string_lossy]. *)
Definition get_prefix (args : Args) : result string string :=
  match prefix args with
  | Some p => Ok p
  | None =>
      match file_name (source args) with
      | Some n => Ok (from_utf8_lossy n)
      | None => Err prefix_error_msg
      end
  end.

Inductive main_error : Type :=
| CanonicalizeSource (e : io_error)   (* "Failed to canonicalize source path: {}" *)
| CanonicalizeDestination (e : io_error)
| PrefixError (msg : string)
| MovingImages (e : io_error).        (* "Error moving images: {}" *)

(** [main] after argument parsing: the arguments of [move_images] are
    evaluated left to right, so both paths are canonicalized before the
    prefix is computed, and any [?] failure returns before [move_images]. *)
Definition main (fs : FS) (args : Args) : outcome main_error :=
  match canonicalize fs (source args) with
  | Err e => Outcome (Err (CanonicalizeSource e)) fs []
  | Ok src =>
      match canonicalize fs (destination args) with
      | Err e => Outcome (Err (CanonicalizeDestination e)) fs []
      | Ok dst =>
          match get_prefix args with
          | Err m => Outcome (Err (PrefixError m)) fs []
          | Ok p =>
              let o := move_images fs src dst (copy args) p (verbose args) (dry_run args) in
              Outcome (match o_result o with
                       | Ok u => Ok u
                       | Err e => Err (MovingImages e)
                       end) (o_fs o) (o_log o)
          end
      end
  end.

(** ** A sample file system *)

(** Directory [/p/trip] holds [photo.JPG], [README], a subdirectory, a
    symlink and an entry whose type cannot be read; [/out] is writable. *)
Definition sample_entries : list (result dir_entry io_error) :=
  [Ok (DirEntry "photo.JPG" (Ok FtFile));
   Ok (DirEntry "sub" (Ok FtDir));
   Ok (DirEntry "link" (Ok FtSymlink));
   Ok (DirEntry "bad" (Err (OtherIo "EIO")));
   Ok (DirEntry "README" (Ok FtFile))].

(** The canonical paths of [/p], [/p/trip] and [/out], and how the
    command line's relative paths resolve from the working directory [/p]. *)
Definition sample_canon : gmap string string :=
  <["trip" := "/p/trip"]> (<["out" := "/out"]> (<["." := "/p"]>
  (<["/p" := "/p"]> (<["/p/trip" := "/p/trip"]> (<["/out" := "/out"]> ∅))))).

Definition sample_fs : FS :=
  MkFS (<[("/p/trip", "photo.JPG") := Reg 1]> (<[("/p/trip", "README") := Reg 2]>
        (<[("/p/trip", "sub") := Dir]> (<[("/p/trip", "link") := Sym "sub"]>
        (<[("/p", "trip") := Dir]> ∅)))))
       (<[1 := "jpeg"]> (<[2 := "text"]> ∅))
       ∅ {[ "/p/trip"; "/out" ]} ∅ ∅
       (<["/p/trip" := Ok sample_entries]> ∅)
       sample_canon.

Definition sample_args (c d : bool) : Args := MkArgs "trip" "out" c None false d.

(** ** Per-pair attempts

    [attempts op fs pairs fs' outs]: the pairs are attempted one after the
    other, each exactly once, starting from [fs]; [outs] records each
    attempt's outcome and [fs'] is the file system left at the end.  Each
    attempt starts from the file system the previous one left, whether it
    failed or not. *)
Inductive attempts (op : transfer_op)
    : FS -> list (string * string) -> FS -> list (result unit io_error) -> Prop :=
| attempts_nil fs : attempts op fs [] fs []
| attempts_cons fs fs1 fs' s d r rest outs :
    op fs s d = (fs1, r) -> attempts op fs1 rest fs' outs ->
    attempts op fs ((s, d) :: rest) fs' (r :: outs).

(** The output for one pair with a given outcome: the debug echo of the
    report line (when not verbose), then the success line or the error line
    carrying the cause. *)
Definition report (verbose : bool) (dry_run_prefix name : string)
    (pair : string * string) (out : result unit io_error) : list record :=
  let '(s, d) := pair in
  ((if verbose then [] else [(Debug, MsgOp dry_run_prefix name s d)]) ++
   [match out with
    | Ok _ => (if verbose then Stdout else Debug, MsgOp dry_run_prefix name s d)
    | Err e => (Error, MsgFailed name s d e)
    end])%list.

Definition trip_out_canon : gmap string string :=
  <["trip" := "/p/trip"]> (<["out" := "/out"]>
  (<["/p/trip" := "/p/trip"]> (<["/out" := "/out"]> ∅))).

(** Three files in [/p/trip]; [b.jpg] vanishes between listing and transfer. *)
Definition vanishing_fs : FS :=
  MkFS (<[("/p/trip", "a.jpg") := Reg 1]> (<[("/p/trip", "c.jpg") := Reg 3]> ∅))
       (<[1 := "A"]> (<[3 := "C"]> ∅))
       ∅ {[ "/p/trip"; "/out" ]} ∅ ∅
       (<["/p/trip" := Ok [Ok (DirEntry "a.jpg" (Ok FtFile));
                           Ok (DirEntry "b.jpg" (Ok FtFile));
                           Ok (DirEntry "c.jpg" (Ok FtFile))]]> ∅)
       trip_out_canon.

Definition is_error (r : record) : bool :=
  match fst r with Error => true | _ => false end.

(** Source and destination are the same directory [/d/x], which already
    holds [x_0.jpg]. *)
Definition alias_fs : FS :=
  MkFS (<[("/d/x", "x_0.jpg") := Reg 1]> ∅)
       (<[1 := "img"]> ∅)
       ∅ {[ "/d/x" ]} ∅ ∅
       (<["/d/x" := Ok [Ok (DirEntry "x_0.jpg" (Ok FtFile))]]> ∅)
       (<["/d/x" := "/d/x"]> (<["/d/x/." := "/d/x"]> ∅)).

Definition alias_args : Args := MkArgs "/d/x" "/d/x" false None false false.

(** [/s/a.jpg] and [/d/b.jpg] are hard links to one file, and [/d/l.jpg] is a
    symbolic link to [/e/f]. *)
Definition links_fs : FS :=
  MkFS (<[("/s", "a.jpg") := Reg 1]> (<[("/d", "b.jpg") := Reg 1]>
        (<[("/d", "l.jpg") := Sym "/e/f"]> (<[("/e", "f") := Reg 2]> ∅))))
       (<[1 := "img"]> (<[2 := "other"]> ∅))
       ∅ {[ "/s"; "/d"; "/e" ]} ∅ ∅ ∅
       (<["/s" := "/s"]> (<["/d" := "/d"]> (<["/e" := "/e"]> ∅))).

(** [/p/trip] opens, but reading its entry stream fails after the first
    entry. *)
Definition read_error_fs : FS :=
  MkFS (<[("/p/trip", "photo.JPG") := Reg 1]> (<[("/p/trip", "README") := Reg 2]> ∅))
       (<[1 := "jpeg"]> (<[2 := "text"]> ∅))
       ∅ {[ "/p/trip"; "/out" ]} ∅ ∅
       (<["/p/trip" := Ok [Ok (DirEntry "photo.JPG" (Ok FtFile)); Err (OtherIo "EIO")]]> ∅)
       trip_out_canon.

(** [trip] resolves to [/p/trip], which cannot be opened for listing. *)
Definition unreadable_fs : FS := MkFS ∅ ∅ ∅ ∅ ∅ ∅ ∅ trip_out_canon.

Definition missing_fs : FS := MkFS ∅ ∅ ∅ ∅ ∅ ∅ ∅ (<["out" := "/out"]> ∅).

Definition is_stdout (r : record) : bool :=
  match fst r with Stdout => true | _ => false end.

Definition parent_fs : FS :=
  MkFS ∅ ∅ ∅ ∅ ∅ ∅ ∅ (<["photos/.." := "/p"]> (<["out" := "/out"]> ∅)).

(** A source typed as [photos/..]. *)
Definition parent_args : Args := MkArgs "photos/.." "out" false None false false.

(** A source directory whose name is the single byte 0xFF, not UTF-8. *)
Definition byte_ff : string := String (ascii_of_nat 255) EmptyString.

Definition non_utf8_args : Args := MkArgs ("/p/" ++ byte_ff) "out" false None false false.

(** * Properties *)

(** ** Runs on sample inputs *)

Example ex_pairs :
  generate_source_destination_pairs ["/s/photo.JPG"; "/s/README"; "/s/.hidden"; "/s/a.b.c"]
    "/d" "trip"
  = [("/s/photo.JPG", "/d/trip_0.JPG"); ("/s/README", "/d/trip_1");
     ("/s/.hidden", "/d/trip_2"); ("/s/a.b.c", "/d/trip_3.c")].
Proof. vm_compute. reflexivity. Qed.

Example ex_main_move :
  let o := main sample_fs (sample_args false false) in
  o_result o = Ok tt /\
  read_path (o_fs o) "/out/trip_0.JPG" = Some "jpeg" /\
  read_path (o_fs o) "/out/trip_1" = Some "text" /\
  read_path (o_fs o) "/p/trip/photo.JPG" = None /\
  read_path (o_fs o) "/p/trip/README" = None.
Proof. vm_compute. repeat split. Qed.

Example ex_main_copy :
  let o := main sample_fs (sample_args true false) in
  o_result o = Ok tt /\
  read_path (o_fs o) "/out/trip_0.JPG" = Some "jpeg" /\
  read_path (o_fs o) "/p/trip/photo.JPG" = Some "jpeg".
Proof. vm_compute. repeat split. Qed.

(** ** Pair generation *)
Section Pairs.

Lemma enumerate_from_length {A} (k : nat) (l : list A) :
  length (enumerate_from k l) = length l.
Proof. revert k; induction l; intros k; simpl; [done | by rewrite IHl]. Qed.

Lemma enumerate_from_lookup {A} (k i : nat) (l : list A) :
  nth_error (enumerate_from k l) i = option_map (fun x => (k + i, x)) (nth_error l i).
Proof.
  revert k i; induction l as [|x l IH]; intros k i; destruct i; simpl; try done.
  - by rewrite Nat.add_0_r.
  - rewrite IH. destruct (nth_error l i); simpl; [|done]. do 3 f_equal. lia.
Qed.

Lemma enumerate_from_fst {A} (k : nat) (l : list A) :
  map snd (enumerate_from k l) = l.
Proof. revert k; induction l; intros k; simpl; [done | by rewrite IHl]. Qed.

Lemma generate_lookup (files : list string) (d p : string) (i : nat) :
  nth_error (generate_source_destination_pairs files d p) i
  = option_map (fun s => (s, join d (destination_name p i s))) (nth_error files i).
Proof.
  unfold generate_source_destination_pairs.
  rewrite nth_error_map, enumerate_from_lookup. by destruct (nth_error files i).
Qed.

Lemma last_split_spec (c : ascii) (s b a : string) :
  last_split c s = Some (b, a) ->
  s = (b ++ String c a)%string /\ ~ In c (list_ascii_of_string a).
Proof.
  revert b a; induction s as [|x rest IH]; intros b a H; simpl in H; [done|].
  destruct (last_split c rest) as [[b' a']|] eqn:E.
  - injection H as <- <-. destruct (IH _ _ eq_refl) as [-> Ha]. done.
  - destruct (Ascii.eqb_spec x c) as [->|]; [|done].
    injection H as <- <-. split; [done|].
    clear IH. intros Hin. induction rest as [|y r IHr]; simpl in *; [done|].
    destruct (last_split c r) as [[??]|]; [done|].
    destruct (Ascii.eqb_spec y c) as [->|Hy]; [done|].
    destruct Hin as [->|Hin]; [done|]. by apply IHr.
Qed.

Lemma last_split_none_after_head (c : ascii) (h : string) :
  ~ In c (list_ascii_of_string h) -> last_split c (String c h) = Some ("", h).
Proof.
  intros Hh. simpl.
  assert (last_split c h = None) as ->; [|by rewrite Ascii.eqb_refl].
  induction h as [|y r IHr]; simpl in *; [done|].
  rewrite IHr by tauto.
  destruct (Ascii.eqb_spec y c); [subst; tauto | done].
Qed.

Lemma string_app_empty_r (s : string) : (s ++ "")%string = s.
Proof. induction s as [|c s IH]; [done | exact (f_equal (String c) IH)]. Qed.

End Pairs.

(** ** Lossy conversion *)
Section Lossy.

Lemma list_ascii_of_string_app (a b : string) :
  list_ascii_of_string (a ++ b) = (list_ascii_of_string a ++ list_ascii_of_string b)%list.
Proof. induction a as [|c a IH]; [done|]. exact (f_equal (cons c) IH). Qed.

Lemma from_utf8_lossy_valid_aux (n : nat) :
  forall s, String.length s <= n -> utf8_valid s = true -> from_utf8_lossy s = s.
Proof.
  induction n as [|n IH]; intros [|b rest] Hl Hv; simpl in *; try done; try lia.
  destruct (utf8_char_width b) as [|[|[|[|[|w]]]]]; try discriminate.
  - f_equal. apply IH; [lia|done].
  - destruct rest as [|b1 rest1]; [discriminate|].
    apply andb_prop in Hv as [-> Hv]. simpl in Hl. do 2 f_equal. apply IH; [lia|done].
  - destruct rest as [|b1 [|b2 rest2]]; try discriminate.
    apply andb_prop in Hv as [Hv Hv3]. apply andb_prop in Hv as [-> ->].
    simpl in Hl. do 3 f_equal. apply IH; [lia|done].
  - destruct rest as [|b1 [|b2 [|b3 rest3]]]; try discriminate.
    apply andb_prop in Hv as [Hv Hv4]. apply andb_prop in Hv as [Hv ->].
    apply andb_prop in Hv as [-> ->].
    simpl in Hl. do 4 f_equal. apply IH; [lia|done].
Qed.

Lemma from_utf8_lossy_valid (s : string) : utf8_valid s = true -> from_utf8_lossy s = s.
Proof. apply (from_utf8_lossy_valid_aux (String.length s)). lia. Qed.

Lemma replacement_no_ascii (c : ascii) :
  nat_of_ascii c < 128 -> ~ In c (list_ascii_of_string replacement).
Proof.
  intros Hc Hin. simpl in Hin.
  repeat (destruct Hin as [<-|Hin]; [vm_compute in Hc; lia|]). done.
Qed.


Lemma from_utf8_lossy_chars_aux (c : ascii) (n : nat) :
  forall s, String.length s <= n ->
  In c (list_ascii_of_string (from_utf8_lossy s)) ->
  In c (list_ascii_of_string s) \/ In c (list_ascii_of_string replacement).
Proof.
  induction n as [|n IH]; intros [|b rest] Hl Hin; simpl in Hin; try tauto; [simpl in Hl; lia|].
  simpl in Hl.
  destruct (utf8_char_width b) as [|[|[|[|[|w]]]]];
    repeat match goal with
    | H : context [match ?r with EmptyString => _ | String _ _ => _ end] |- _ =>
        destruct r; simpl in Hl
    | H : context [if ?t then _ else _] |- _ => destruct t
    end;
    rewrite ?list_ascii_of_string_app in Hin; cbn [list_ascii_of_string] in Hin;
    repeat match goal with
    | H : In _ (_ ++ _)%list |- _ => apply in_app_or in H as [H|H]
    end;
    try (by right);
    repeat (destruct Hin as [Hin|Hin]; [subst; left; simpl; tauto|]);
    (apply IH in Hin as [H|H]; [left; simpl in *; tauto|by right|simpl in *; lia]).
Qed.

Lemma from_utf8_lossy_ascii (c : ascii) (s : string) :
  nat_of_ascii c < 128 ->
  In c (list_ascii_of_string (from_utf8_lossy s)) -> In c (list_ascii_of_string s).
Proof.
  intros Hc Hin.
  destruct (from_utf8_lossy_chars_aux c (String.length s) s (le_n _) Hin) as [H|H]; [done|].
  by destruct (replacement_no_ascii c Hc H).
Qed.

End Lossy.

(** C1: [generate_source_destination_pairs] yields one pair per input file, in
    input order, and the i-th pair's destination name is built with index i. *)
Theorem pairs_one_per_file_in_order (files : list string) (d p : string) :
  length (generate_source_destination_pairs files d p) = length files /\
  map fst (generate_source_destination_pairs files d p) = files /\
  (forall i : nat,
     nth_error (generate_source_destination_pairs files d p) i
     = option_map (fun s => (s, join d (destination_name p i s))) (nth_error files i)).
Proof.
  split; [|split].
  - unfold generate_source_destination_pairs.
    by rewrite length_map, enumerate_from_length.
  - unfold generate_source_destination_pairs. rewrite map_map.
    rewrite <- (enumerate_from_fst 0 files) at 2.
    apply map_ext. by intros [??].
  - apply generate_lookup.
Qed.

(** C2, counterexample: an extension that is not valid UTF-8 is not kept
    verbatim: [to_string_lossy] turns the byte 0xFF of [a.\xff] into U+FFFD. *)
Lemma non_utf8_extension_replaced :
  extension ("/s/a." ++ byte_ff) = Some byte_ff /\
  nth_error (generate_source_destination_pairs ["/s/a." ++ byte_ff] "/d" "x") 0
    = Some ("/s/a." ++ byte_ff, "/d/x_0." ++ replacement) /\
  "/d/x_0." ++ replacement <> "/d/x_0." ++ byte_ff.
Proof. vm_compute. split; [reflexivity|]. split; [reflexivity|]. discriminate. Qed.

(** C2, as amended: the destination of the i-th file is [{prefix}_{i}]
    followed, when the source has an extension (the text after the last dot
    of its file name, that dot not the first character), by a dot and the
    extension through [to_string_lossy]: verbatim when it is valid UTF-8,
    each invalid sequence replaced by U+FFFD otherwise.  Without an extension
    nothing (in particular no dot) follows the index. *)
Theorem destination_name_prefix_index_ext (files : list string) (d p : string)
    (i : nat) (s : string) (Hi : nth_error files i = Some s) :
  exists ext_part : string,
    nth_error (generate_source_destination_pairs files d p) i
      = Some (s, join d (p ++ "_" ++ pretty i ++ ext_part)) /\
    ((extension s = None /\ ext_part = "") \/
     (exists stem e : string,
        extension s = Some e /\ file_name s = Some (stem ++ "." ++ e) /\
        stem <> "" /\ ~ In "."%char (list_ascii_of_string e) /\
        ext_part = "." ++ from_utf8_lossy e /\
        (utf8_valid e = true -> ext_part = "." ++ e))).
Proof.
  rewrite generate_lookup, Hi; simpl. unfold destination_name.
  destruct (extension s) as [e|] eqn:He.
  - exists ("." ++ from_utf8_lossy e). split; [done|]. right.
    unfold extension in He.
    destruct (file_name s) as [f|] eqn:Hf; [|done].
    unfold rsplit_file_at_dot in He.
    destruct (String.eqb_spec f ".."); [done|].
    destruct (last_dot_split f) as [[b a]|] eqn:Hs; [|done].
    destruct (String.eqb_spec b ""); [done|].
    injection He as <-.
    destruct (last_split_spec _ _ _ _ Hs) as [-> Ha].
    exists b, a. split; [done|]. split; [done|]. split; [done|]. split; [done|].
    split; [done|]. intros Hv. by rewrite from_utf8_lossy_valid.
  - exists "". split; [done|]. by left.
Qed.

Example ex_photo_JPG :
  destination_name "trip" 3 "/s/photo.JPG" = "trip_3.JPG".
Proof. vm_compute. reflexivity. Qed.

Example ex_README :
  destination_name "x" 0 "/s/README" = "x_0".
Proof. vm_compute. reflexivity. Qed.

(** A file name ending in a dot has the empty extension, so its destination
    ends in a dot. *)
Example ex_trailing_dot :
  extension "/s/photo." = Some "" /\ destination_name "x" 0 "/s/photo." = "x_0.".
Proof. vm_compute. split; reflexivity. Qed.

(** C10: a file name made of a leading dot and no other dot ([.hidden]) has
    no extension: its destination is [{prefix}_{i}] with nothing appended. *)
Theorem dotfile_is_extensionless (files : list string) (d p : string)
    (i : nat) (s h : string)
    (Hi : nth_error files i = Some s)
    (Hf : file_name s = Some (String "." h))
    (Hh : ~ In "."%char (list_ascii_of_string h)) :
  nth_error (generate_source_destination_pairs files d p) i
  = Some (s, join d (p ++ "_" ++ pretty i)).
Proof.
  rewrite generate_lookup, Hi; simpl. unfold destination_name, extension.
  rewrite Hf. unfold rsplit_file_at_dot.
  destruct (String.eqb_spec (String "." h) "..") as [E|_].
  { injection E as ->. simpl in Hh. tauto. }
  unfold last_dot_split. rewrite last_split_none_after_head by done. simpl.
  by rewrite string_app_empty_r.
Qed.

Lemma destination_name_prefix_index_ext_witness :
  nth_error ["/s/a.txt"; "/s/photo.JPG"] 1 = Some "/s/photo.JPG" /\
  exists ext_part : string,
    nth_error (generate_source_destination_pairs ["/s/a.txt"; "/s/photo.JPG"] "/d" "trip") 1
      = Some ("/s/photo.JPG", join "/d" ("trip" ++ "_" ++ pretty 1 ++ ext_part)) /\
    ((extension "/s/photo.JPG" = None /\ ext_part = "") \/
     (exists stem e : string,
        extension "/s/photo.JPG" = Some e /\
        file_name "/s/photo.JPG" = Some (stem ++ "." ++ e) /\
        stem <> "" /\ ~ In "."%char (list_ascii_of_string e) /\
        ext_part = "." ++ from_utf8_lossy e /\
        (utf8_valid e = true -> ext_part = "." ++ e))).
Proof.
  split; [reflexivity|].
  apply (destination_name_prefix_index_ext ["/s/a.txt"; "/s/photo.JPG"] "/d" "trip" 1).
  reflexivity.
Defined.

Lemma dotfile_is_extensionless_witness :
  nth_error ["/s/.hidden"] 0 = Some "/s/.hidden" /\
  file_name "/s/.hidden" = Some (String "." "hidden") /\
  ~ In "."%char (list_ascii_of_string "hidden") /\
  nth_error (generate_source_destination_pairs ["/s/.hidden"] "/d" "x") 0
  = Some ("/s/.hidden", join "/d" ("x" ++ "_" ++ pretty 0)).
Proof.
  assert (Hh : ~ In "."%char (list_ascii_of_string "hidden")) by (simpl; intuition discriminate).
  split; [reflexivity|]. split; [reflexivity|]. split; [exact Hh|].
  apply (dotfile_is_extensionless ["/s/.hidden"] "/d" "x" 0 "/s/.hidden" "hidden");
    [reflexivity | reflexivity | exact Hh].
Defined.

(** ** Listing *)
Section Listing.

Lemma filter_map_entries_spec (root : string) (l : list (result dir_entry io_error)) :
  forall ps lg, filter_map_entries root l = (ps, lg) ->
  (forall p, In p ps <->
     exists e, In (Ok e) l /\ de_file_type e = Ok FtFile /\ p = join root (de_name e)) /\
  (forall e err, In (Ok e) l -> de_file_type e = Err err ->
     In (Warn, MsgFileTypeFailed (join root (de_name e)) err) lg) /\
  (forall lv m, In (lv, m) lg -> lv = Debug \/ lv = Warn).
Proof.
  induction l as [|f l IH]; intros ps lg H; simpl in H.
  - injection H as <- <-. simpl. split; [|split]; [|tauto|tauto].
    intros p; split; [tauto|]. intros (?&[]&_).
  - destruct (list_entry root f) as [o lg1] eqn:Hf.
    destruct (filter_map_entries root l) as [ps' lg'] eqn:Hr.
    injection H as <- <-.
    destruct (IH _ _ eq_refl) as (IHin & IHwarn & IHlv).
    unfold list_entry in Hf.
    destruct f as [e|err]; [destruct (de_file_type e) as [ft|err] eqn:Ht|].
    + destruct (is_file ft) eqn:Hft; injection Hf as <- <-.
      * destruct ft; try discriminate. split; [|split].
        -- intros p; simpl; rewrite IHin. split.
           ++ intros [<-|(e'&?&?&?)]; [exists e|exists e']; naive_solver.
           ++ intros (e'&[[= <-]|?]&?&?); naive_solver.
        -- intros e' err [[= <-]|?] He'; [congruence|auto].
        -- simpl; eauto.
      * split; [|split].
        -- intros p; rewrite IHin; split.
           ++ intros (e'&?&?&?); exists e'; naive_solver.
           ++ intros (e'&[[= <-]|?]&?&?); [destruct ft; simpl in *; congruence|naive_solver].
        -- intros e' err [[= <-]|?] He'; [congruence|].
           simpl; right; eauto.
        -- intros lv m [[= <- _]|?]; [auto|eauto].
    + injection Hf as <- <-. split; [|split].
      * intros p; rewrite IHin; split.
        -- intros (e'&?&?&?); exists e'; naive_solver.
        -- intros (e'&[[= <-]|?]&?&?); [congruence|naive_solver].
      * intros e' err' [[= <-]|?] He'.
        -- rewrite Ht in He'. injection He' as ->. simpl; auto.
        -- simpl; right; eauto.
      * intros lv m [[= <- _]|?]; [auto|eauto].
    + injection Hf as <- <-. split; [|split].
      * intros p; rewrite IHin; split.
        -- intros (e'&?&?&?); exists e'; naive_solver.
        -- intros (e'&[[=]|?]&?&?); naive_solver.
      * intros e' err' [[=]|?] He'. simpl; right; eauto.
      * intros lv m [[= <- _]|?]; [auto|eauto].
Qed.

End Listing.

(** C6: once the source directory is open, the listing succeeds and holds
    exactly the paths of the entries whose type is "regular file";
    directories, symlinks and special files never appear, and each entry
    whose type cannot be queried is skipped with a warning naming it. *)
Theorem listing_regular_files_only (fs : FS) (src : string)
    (entries : list (result dir_entry io_error))
    (Hopen : read_dir fs src = Ok entries) :
  exists (ps : list string) (lg : list record),
    get_source_files fs src = (Ok ps, lg) /\
    (forall p, In p ps <->
       exists e, In (Ok e) entries /\ de_file_type e = Ok FtFile /\ p = join src (de_name e)) /\
    (forall e err, In (Ok e) entries -> de_file_type e = Err err ->
       In (Warn, MsgFileTypeFailed (join src (de_name e)) err) lg).
Proof.
  unfold get_source_files. rewrite Hopen.
  destruct (filter_map_entries src entries) as [ps lg] eqn:H.
  destruct (filter_map_entries_spec _ _ _ _ H) as (Hin & Hwarn & _).
  exists ps, lg. split; [done|]. split; [done|]. done.
Qed.

Lemma listing_regular_files_only_witness :
  read_dir sample_fs "/p/trip" = Ok sample_entries /\
  exists (ps : list string) (lg : list record),
    get_source_files sample_fs "/p/trip" = (Ok ps, lg) /\
    In "/p/trip/photo.JPG" ps /\
    In (Warn, MsgFileTypeFailed "/p/trip/bad" (OtherIo "EIO")) lg.
Proof.
  split; [reflexivity|].
  destruct (listing_regular_files_only sample_fs "/p/trip" sample_entries eq_refl)
    as (ps & lg & Hget & Hin & Hwarn).
  exists ps, lg. split; [exact Hget|]. split.
  - apply Hin. exists (DirEntry "photo.JPG" (Ok FtFile)).
    split; [simpl; auto|]. split; reflexivity.
  - apply (Hwarn (DirEntry "bad" (Err (OtherIo "EIO")))); [simpl; tauto | reflexivity].
Defined.

Example ex_listing :
  get_source_files sample_fs "/p/trip"
  = (Ok ["/p/trip/photo.JPG"; "/p/trip/README"],
     [(Debug, MsgIgnoring "/p/trip/sub"); (Debug, MsgIgnoring "/p/trip/link");
      (Warn, MsgFileTypeFailed "/p/trip/bad" (OtherIo "EIO"))]).
Proof. vm_compute. reflexivity. Qed.

(** ** Fatal listing errors *)


(** ** Transfer loop *)
Section Transfer.

Lemma transfer_loop_attempts (op : transfer_op) (v : bool) (dp n : string)
    (pairs : list (string * string)) :
  forall fs fs' lg, transfer_loop op v dp n fs pairs = (fs', lg) ->
  exists outs, length outs = length pairs /\ attempts op fs pairs fs' outs /\
    lg = concat (zip_with (report v dp n) pairs outs).
Proof.
  induction pairs as [|[s d] rest IH]; intros fs fs' lg H; simpl in H.
  - injection H as <- <-. exists []. repeat split; constructor.
  - destruct (op fs s d) as [fs1 r] eqn:Hop.
    destruct (transfer_loop op v dp n fs1 rest) as [fs2 lg2] eqn:Hr.
    injection H as <- <-. destruct (IH _ _ _ Hr) as (outs & Hlen & Hatt & ->).
    exists (r :: outs). split; [simpl; lia|]. split; [by eapply attempts_cons|].
    simpl. by destruct r, v.
Qed.

Lemma transfer_loop_dry_run (v : bool) (dp n : string) (pairs : list (string * string)) :
  forall fs, fst (transfer_loop op_dry_run v dp n fs pairs) = fs /\
  forall r, In r (snd (transfer_loop op_dry_run v dp n fs pairs)) -> fst r <> Error.
Proof.
  induction pairs as [|[s d] rest IH]; intros fs; simpl; [tauto|].
  destruct (IH fs) as [IHfs IHlg].
  destruct (transfer_loop op_dry_run v dp n fs rest) as [fs2 lg2]; simpl in *.
  split; [done|]. intros r Hr.
  apply in_app_or in Hr as [Hr|[<-|Hr]].
  - destruct v; simpl in Hr; [done|]. destruct Hr as [<-|[]]. discriminate.
  - destruct v; discriminate.
  - by apply IHlg.
Qed.

Lemma transfer_loop_names (op : transfer_op) (v : bool) (dp n : string)
    (pairs : list (string * string)) :
  forall fs lv dp' n' s d,
  In (lv, MsgOp dp' n' s d) (snd (transfer_loop op v dp n fs pairs)) -> dp' = dp /\ n' = n.
Proof.
  induction pairs as [|[s0 d0] rest IH]; intros fs lv dp' n' s d; simpl; [tauto|].
  destruct (op fs s0 d0) as [fs1 [u|e]];
    destruct (transfer_loop op v dp n _ rest) as [fs2 lg2] eqn:Hr; simpl;
    intros Hin; apply in_app_or in Hin as [Hin|[Heq|Hin]];
    try (destruct v; simpl in Hin; [done|]; destruct Hin as [[=]|[]]; by subst);
    try (destruct v; injection Heq; by intros);
    try discriminate;
    eapply IH; by rewrite Hr.
Qed.

Lemma filter_map_entries_msgs (root : string) (l : list (result dir_entry io_error)) :
  forall lv m, In (lv, m) (snd (filter_map_entries root l)) ->
  lv <> Error /\ forall dp n s d, m <> MsgOp dp n s d.
Proof.
  induction l as [|f l IH]; simpl; [tauto|].
  destruct (list_entry root f) as [o lg1] eqn:Hf.
  destruct (filter_map_entries root l) as [ps lg2]. simpl in *.
  intros lv m Hin. apply in_app_or in Hin as [Hin|Hin]; [|by apply IH].
  unfold list_entry in Hf.
  destruct f as [e|err]; [destruct (de_file_type e) as [ft|err]; [destruct (is_file ft)|]|];
    injection Hf as <- <-; simpl in Hin; try contradiction;
    destruct Hin as [Heq|[]]; injection Heq as <- <-; split; discriminate.
Qed.

End Transfer.



Lemma filter_map_entries_entry_error (root : string) (l : list (result dir_entry io_error)) :
  forall ps lg e, filter_map_entries root l = (ps, lg) -> In (Err e) l ->
  In (Warn, MsgEntryError e) lg.
Proof.
  induction l as [|f l IH]; intros ps lg e H Hin; simpl in H; [done|].
  destruct (list_entry root f) as [o lg1] eqn:Hf.
  destruct (filter_map_entries root l) as [ps' lg'] eqn:Hr.
  injection H as _ <-. apply in_or_app.
  destruct Hin as [->|Hin].
  - left. simpl in Hf. injection Hf as _ <-. by left.
  - right. eauto.
Qed.



(** The second of three transfers fails: the first and third files are
    moved and exactly one error line is written. *)
Example ex_partial_failure :
  let o := main vanishing_fs (sample_args false false) in
  o_result o = Ok tt /\
  read_path (o_fs o) "/out/trip_0.jpg" = Some "A" /\
  read_path (o_fs o) "/out/trip_2.jpg" = Some "C" /\
  read_path (o_fs o) "/out/trip_1.jpg" = None /\
  filter is_error (o_log o)
    = [(Error, MsgFailed "move" "/p/trip/b.jpg" "/out/trip_1.jpg" NotFound)].
Proof. vm_compute. repeat split. Qed.

Lemma get_source_files_msgs (fs : FS) (src : string) :
  forall lv m, In (lv, m) (snd (get_source_files fs src)) ->
  lv <> Error /\ forall dp n s d, m <> MsgOp dp n s d.
Proof.
  unfold get_source_files. destruct (read_dir fs src) as [entries|e]; simpl; [|tauto].
  pose proof (filter_map_entries_msgs src entries) as H.
  destruct (filter_map_entries src entries) as [ps lg]. exact H.
Qed.

Lemma param_log_msgs (src dst : string) (c : bool) (p : string) (v d : bool) :
  forall lv m, In (lv, m) (param_log src dst c p v d) ->
  lv = Debug /\ exists w x, m = MsgParam w x.
Proof.
  intros lv m Hin. simpl in Hin.
  repeat (destruct Hin as [Hin|Hin]; [injection Hin as <- <-; eauto|]). done.
Qed.

(** What [main] leaves behind in a dry run: the file system it was given,
    no error line, and every report line marked as a dry run and naming the
    operation selected by the copy flag. *)
Lemma main_dry_run (fs : FS) (args : Args) (Hd : dry_run args = true) :
  o_fs (main fs args) = fs /\
  forall lv m, In (lv, m) (o_log (main fs args)) ->
    lv <> Error /\
    forall dp n s d, m = MsgOp dp n s d ->
      dp = "[dry-run] " /\ n = (if copy args then "copy" else "move").
Proof.
  unfold main. destruct (canonicalize fs (source args)) as [src|]; cbn [o_fs o_log];
    [|split; [done|intros ?? []]].
  destruct (canonicalize fs (destination args)) as [dst|]; cbn [o_fs o_log];
    [|split; [done|intros ?? []]].
  destruct (get_prefix args) as [p|]; cbn [o_fs o_log];
    [|split; [done|intros ?? []]].
  unfold move_images. rewrite Hd.
  pose proof (get_source_files_msgs fs src) as Hmsgs.
  destruct (get_source_files fs src) as [[files|e] lg] eqn:Hg; cbn [o_fs o_log snd] in *.
  - pose proof (transfer_loop_dry_run (verbose args) "[dry-run] "
                  (if copy args then "copy" else "move")
                  (generate_source_destination_pairs files dst p) fs) as [Hfs Hlv].
    pose proof (transfer_loop_names op_dry_run (verbose args) "[dry-run] "
                  (if copy args then "copy" else "move")
                  (generate_source_destination_pairs files dst p) fs) as Hnames.
    unfold select_op. simpl (if true then _ else _).
    destruct (transfer_loop _ _ _ _ fs _) as [fs' lg'] eqn:Ht. cbn [fst snd o_fs o_log] in *.
    split; [done|]. intros lv m Hr.
    apply in_app_or in Hr as [Hr|Hr].
    + apply param_log_msgs in Hr as [-> (w & x & ->)]. split; [done|]. discriminate.
    + apply in_app_or in Hr as [Hr|Hr].
      * apply Hmsgs in Hr as [? Hm]. split; [done|]. intros ???? ->. by destruct (Hm dp n s d).
      * split; [apply (Hlv (lv, m) Hr)|]. intros ???? ->. by eapply Hnames.
  - split; [done|]. intros lv m Hr.
    apply in_app_or in Hr as [Hr|Hr].
    + apply param_log_msgs in Hr as [-> (w & x & ->)]. split; [done|]. discriminate.
    + apply Hmsgs in Hr as [? Hm]. split; [done|]. intros ???? ->. by destruct (Hm dp n s d).
Qed.

(** C4: in a dry run the selected operation succeeds on every pair without
    touching the file system, the run leaves the file system exactly as it
    found it (source directory included), and no failure is reported. *)
Theorem dry_run_leaves_fs_unchanged (fs : FS) (args : Args)
    (Hd : dry_run args = true) :
  (forall (fs0 : FS) (s d : string),
     select_op (dry_run args) (copy args) fs0 s d = (fs0, Ok tt)) /\
  o_fs (main fs args) = fs /\
  (forall r, In r (o_log (main fs args)) -> fst r <> Error).
Proof.
  destruct (main_dry_run fs args Hd) as [Hfs Hlog].
  split; [|split; [done|]].
  - intros. rewrite Hd. reflexivity.
  - intros [lv m] Hr. by apply (Hlog lv m Hr).
Qed.

Lemma dry_run_leaves_fs_unchanged_witness :
  dry_run (sample_args false true) = true /\
  o_fs (main sample_fs (sample_args false true)) = sample_fs.
Proof.
  split; [reflexivity|].
  apply (dry_run_leaves_fs_unchanged sample_fs (sample_args false true)).
  reflexivity.
Defined.

(** C9: with both the dry-run and the copy flag, the no-op closure is
    selected, nothing in the file system changes, and every report line
    reads "[dry-run] copy". *)
Theorem dry_run_takes_precedence_over_copy (fs : FS) (args : Args)
    (Hd : dry_run args = true) (Hc : copy args = true) :
  select_op (dry_run args) (copy args) = op_dry_run /\
  o_fs (main fs args) = fs /\
  (forall lv dp n s d, In (lv, MsgOp dp n s d) (o_log (main fs args)) ->
     dp = "[dry-run] " /\ n = "copy").
Proof.
  destruct (main_dry_run fs args Hd) as [Hfs Hlog].
  split; [by rewrite Hd|]. split; [done|].
  intros lv dp n s d Hr.
  pose proof (proj2 (Hlog lv _ Hr) dp n s d eq_refl) as Hm. by rewrite Hc in Hm.
Qed.

Lemma dry_run_takes_precedence_over_copy_witness :
  dry_run (sample_args true true) = true /\ copy (sample_args true true) = true /\
  o_fs (main sample_fs (sample_args true true)) = sample_fs.
Proof.
  split; [reflexivity|]. split; [reflexivity|].
  apply (dry_run_takes_precedence_over_copy sample_fs (sample_args true true));
    reflexivity.
Defined.

Example ex_dry_run_copy_log :
  In (Debug, MsgOp "[dry-run] " "copy" "/p/trip/photo.JPG" "/out/trip_0.JPG")
     (o_log (main sample_fs (sample_args true true))).
Proof. vm_compute. tauto. Qed.

(** ** Looking paths up *)
Section Lookup.

Lemma entry_key_of_canon (fs fs' : FS) :
  fs_canon fs' = fs_canon fs -> forall p, entry_key_of fs' p = entry_key_of fs p.
Proof. intros Hc p. unfold entry_key_of. by rewrite Hc. Qed.

Lemma follow_same (fs fs' : FS) :
  fs_entries fs' = fs_entries fs -> fs_canon fs' = fs_canon fs ->
  forall n p, follow n fs' p = follow n fs p.
Proof.
  intros He Hc n. induction n as [|n IH]; intros p; simpl;
    rewrite (entry_key_of_canon _ _ Hc), He;
    destruct (entry_key_of fs p) as [k|]; try done;
    destruct (fs_entries fs !! k) as [[]|]; auto.
Qed.

(** A completed lookup ends on what the entry map holds at its key. *)
Lemma follow_result (fs : FS) (n : nat) (p : string) (k : entry_key) (o : option node) :
  follow n fs p = Ok (k, o) -> fs_entries fs !! k = o.
Proof.
  revert p. induction n as [|n IH]; intros p H; simpl in H;
    destruct (entry_key_of fs p) as [k'|]; try discriminate;
    destruct (fs_entries fs !! k') as [[|t|]|] eqn:E;
    try (injection H as <- <-; done); try discriminate; by eapply IH.
Qed.

Lemma follow_hit (fs : FS) (n : nat) (p : string) (k : entry_key) (o : option node) :
  entry_key_of fs p = Ok k -> fs_entries fs !! k = o ->
  (forall t, o <> Some (Sym t)) -> follow n fs p = Ok (k, o).
Proof.
  intros Hk Ho Hns. destruct n; simpl; rewrite Hk, Ho;
    (destruct o as [[|t|]|]; [done|by destruct (Hns t)|done|done]).
Qed.

(** Creating the entry a lookup ended on, as [fs::copy] does through a
    missing name or a dangling link, makes the same lookup reach it. *)
Lemma follow_insert_end (fs fs' : FS) (kt : entry_key) (x : node) :
  fs_entries fs' = <[kt := x]> (fs_entries fs) -> fs_canon fs' = fs_canon fs ->
  (forall t, x <> Sym t) ->
  forall n p, follow n fs p = Ok (kt, None) -> follow n fs' p = Ok (kt, Some x).
Proof.
  intros He Hc Hx n. induction n as [|n IH]; intros p H;
    pose proof (follow_result _ _ _ _ _ H) as Hkt;
    simpl in H |- *; rewrite (entry_key_of_canon _ _ Hc), He;
    destruct (entry_key_of fs p) as [k|]; try discriminate;
    (destruct (decide (k = kt)) as [->|Hne];
     [rewrite lookup_insert_eq; destruct x as [|t|]; [done|by destruct (Hx t)|done]
     |rewrite lookup_insert_ne by done]);
    destruct (fs_entries fs !! k) as [[|t|]|] eqn:E; try discriminate;
    try congruence; auto.
Qed.

(** Entries that are kept keep every completed lookup. *)
Lemma follow_extend (fs fs' : FS) :
  (forall k v, fs_entries fs !! k = Some v -> fs_entries fs' !! k = Some v) ->
  fs_canon fs' = fs_canon fs ->
  forall n p k x, follow n fs p = Ok (k, Some x) -> follow n fs' p = Ok (k, Some x).
Proof.
  intros He Hc n. induction n as [|n IH]; intros p k x H;
    simpl in H |- *; rewrite (entry_key_of_canon _ _ Hc);
    destruct (entry_key_of fs p) as [k'|]; try discriminate;
    destruct (fs_entries fs !! k') as [v|] eqn:E; try discriminate;
    rewrite (He _ _ E); destruct v; auto.
Qed.

End Lookup.


(** Two different path strings can reach one file: with [--prefix ./x] the
    destination [/d/x/./x_0.jpg] is the source's own entry, so the move does
    nothing and a copy empties the file. *)
Example ex_dot_prefix_same_file :
  same_file_paths alias_fs "/d/x/x_0.jpg" "/d/x/./x_0.jpg" = true /\
  fs_rename alias_fs "/d/x/x_0.jpg" "/d/x/./x_0.jpg" = (alias_fs, Ok tt) /\
  read_path (fst (fs_copy alias_fs "/d/x/x_0.jpg" "/d/x/./x_0.jpg")) "/d/x/x_0.jpg" = Some "".
Proof. vm_compute. split; [reflexivity|]. split; reflexivity. Qed.

(** A hard link at the destination is the source file: copying onto it
    empties both names.  A symbolic link at the destination is followed: the
    file it points to receives the content. *)
Example ex_copy_through_links :
  read_path (fst (fs_copy links_fs "/s/a.jpg" "/d/b.jpg")) "/s/a.jpg" = Some "" /\
  read_path (fst (fs_copy links_fs "/s/a.jpg" "/d/l.jpg")) "/e/f" = Some "img" /\
  read_path (fst (fs_rename links_fs "/s/a.jpg" "/d/b.jpg")) "/s/a.jpg" = Some "img".
Proof. vm_compute. split; [reflexivity|]. split; reflexivity. Qed.



(** C8, counterexample: without an override the prefix is the source file
    name passed through [to_string_lossy]; a name that is not valid UTF-8
    (here the single byte 0xFF) gives the replacement character, not the
    base name. *)
Lemma prefix_of_non_utf8_source :
  prefix non_utf8_args = None /\
  file_name (source non_utf8_args) = Some byte_ff /\
  get_prefix non_utf8_args = Ok replacement /\
  get_prefix non_utf8_args <> Ok byte_ff.
Proof. vm_compute. split; [reflexivity|]. split; [reflexivity|]. split; [reflexivity|discriminate]. Qed.

(** C8, as amended: the prefix is the override when one is given, otherwise
    the file name of the source path through the lossy UTF-8 conversion,
    which keeps a valid UTF-8 name verbatim; with neither, [main] fails before
    [move_images] runs (nothing listed, transferred or written), and the
    error is the prefix error once both paths resolve. *)
Theorem prefix_determination (fs : FS) (args : Args) :
  (forall p, prefix args = Some p -> get_prefix args = Ok p) /\
  (forall n, prefix args = None -> file_name (source args) = Some n ->
     get_prefix args = Ok (from_utf8_lossy n) /\
     (utf8_valid n = true -> get_prefix args = Ok n)) /\
  (forall src dst p, canonicalize fs (source args) = Ok src ->
     canonicalize fs (destination args) = Ok dst -> get_prefix args = Ok p ->
     o_fs (main fs args) = o_fs (move_images fs src dst (copy args) p (verbose args) (dry_run args)) /\
     o_log (main fs args) = o_log (move_images fs src dst (copy args) p (verbose args) (dry_run args))) /\
  (prefix args = None -> file_name (source args) = None ->
     (exists err, o_result (main fs args) = Err err) /\
     o_fs (main fs args) = fs /\ o_log (main fs args) = [] /\
     (forall src dst, canonicalize fs (source args) = Ok src ->
        canonicalize fs (destination args) = Ok dst ->
        o_result (main fs args) = Err (PrefixError prefix_error_msg))).
Proof.
  unfold get_prefix. split; [|split; [|split]].
  - intros p ->. done.
  - intros n -> ->. split; [done|]. intros Hv. by rewrite from_utf8_lossy_valid.
  - intros src dst p Hs Hd Hp. unfold main. rewrite Hs, Hd. unfold get_prefix. by rewrite Hp.
  - intros Hp Hf. unfold main, get_prefix. rewrite Hp, Hf.
    destruct (canonicalize fs (source args)) as [src|]; simpl;
      [|split; [eauto|]; split; [done|]; split; [done|]; intros ?? [=]].
    destruct (canonicalize fs (destination args)) as [dst|]; simpl.
    + split; [eauto|]. split; [done|]. split; [done|]. by intros.
    + split; [eauto|]. split; [done|]. split; [done|]. intros ?? _ [=].
Qed.

Lemma prefix_determination_witness :
  get_prefix (sample_args false false) = Ok "trip" /\
  o_result (main sample_fs (MkArgs "." "out" false None false false))
    = Err (PrefixError prefix_error_msg) /\
  o_fs (main sample_fs (MkArgs "." "out" false None false false)) = sample_fs.
Proof.
  pose proof (prefix_determination sample_fs (sample_args false false)) as (_ & H2 & _).
  pose proof (prefix_determination sample_fs (MkArgs "." "out" false None false false))
    as (_ & _ & _ & H4).
  destruct (H4 eq_refl eq_refl) as (_ & Hfs & _ & Herr).
  split; [exact (proj2 (H2 "trip" eq_refl eq_refl) eq_refl)|].
  split; [|exact Hfs].
  apply (Herr "/p" "/out"); reflexivity.
Defined.

(** * Further properties of the code *)

(** ** Destination names *)
Section Names.

Lemma string_app_cancel_l (p a b : string) : (p ++ a)%string = (p ++ b)%string -> a = b.
Proof. induction p as [|c p IH]; [done|]. intros H. injection H. exact IH. Qed.

Lemma pretty_N_go_no_char (c : ascii) (Hc : forall y, pretty_N_char y <> c) (x : N) :
  forall s, ~ In c (list_ascii_of_string s) -> ~ In c (list_ascii_of_string (pretty_N_go x s)).
Proof.
  induction (N.lt_wf_0 x) as [x _ IH]; intros s Hs.
  destruct (decide (x = 0)%N) as [->|Hx]; [by rewrite pretty_N_go_0|].
  rewrite pretty_N_go_step by lia. apply IH; [apply N.div_lt; lia|].
  intros [Heq|Hin]; [by apply (Hc (x `mod` 10)%N)|done].
Qed.

Lemma pretty_no_char (c : ascii) (Hc : forall y, pretty_N_char y <> c) (n : nat) :
  ~ In c (list_ascii_of_string (pretty n)).
Proof.
  change (pretty n) with
    (if decide (N.of_nat n = 0%N) then "0" else pretty_N_go (N.of_nat n) "").
  destruct (decide (N.of_nat n = 0%N)).
  - simpl. intros [Heq|[]]. by apply (Hc 0%N).
  - apply (pretty_N_go_no_char c Hc). simpl. tauto.
Qed.

Lemma pretty_N_char_not_dot (y : N) : pretty_N_char y <> "."%char.
Proof. unfold pretty_N_char. repeat case_match; discriminate. Qed.

Lemma pretty_N_char_not_slash (y : N) : pretty_N_char y <> "/"%char.
Proof. unfold pretty_N_char. repeat case_match; discriminate. Qed.

(** Two strings, each a dot-free head followed by nothing or by a dot and
    more, split the same way when they are equal. *)
Lemma dot_free_heads_eq (a1 b1 a2 b2 : string) :
  ~ In "."%char (list_ascii_of_string a1) -> ~ In "."%char (list_ascii_of_string a2) ->
  (b1 = "" \/ exists r, b1 = String "." r) -> (b2 = "" \/ exists r, b2 = String "." r) ->
  (a1 ++ b1)%string = (a2 ++ b2)%string -> a1 = a2.
Proof.
  revert a2. induction a1 as [|c1 a1 IH]; intros [|c2 a2] H1 H2 Hb1 Hb2 Heq; simpl in *.
  - done.
  - exfalso. destruct Hb1 as [->|[r ->]]; [discriminate|].
    injection Heq as <- _. tauto.
  - exfalso. destruct Hb2 as [->|[r ->]]; [discriminate|].
    injection Heq as -> _. tauto.
  - injection Heq as -> Heq. f_equal. apply IH; tauto.
Qed.

Lemma destination_name_index_inj (p : string) (i j : nat) (s t : string) :
  destination_name p i s = destination_name p j t -> i = j.
Proof.
  unfold destination_name. intros H.
  apply string_app_cancel_l in H. injection H as H.
  apply (inj pretty).
  eapply dot_free_heads_eq; [apply pretty_no_char, pretty_N_char_not_dot
                            |apply pretty_no_char, pretty_N_char_not_dot|..|exact H];
    [destruct (extension s)|destruct (extension t)]; eauto.
Qed.

Lemma join_same_head_inj (d : string) (c : ascii) (r1 r2 : string) :
  join d (String c r1) = join d (String c r2) -> r1 = r2.
Proof.
  unfold join. destruct (is_sep_byte c).
  - by intros [= ->].
  - destruct (last_char d) as [l|]; [destruct (is_sep_byte l)|];
      intros H; apply string_app_cancel_l in H; by injection H.
Qed.

Lemma destination_name_head (p : string) (i : nat) (s : string) :
  exists r, destination_name p i s =
            String (match p with EmptyString => "_"%char | String c _ => c end) r.
Proof. destruct p; eexists; reflexivity. Qed.

Lemma join_destination_inj (d p : string) (i j : nat) (s t : string) :
  join d (destination_name p i s) = join d (destination_name p j t) -> i = j.
Proof.
  intros H. apply (destination_name_index_inj p i j s t).
  destruct (destination_name_head p i s) as [r1 E1].
  destruct (destination_name_head p j t) as [r2 E2].
  rewrite E1, E2 in *. apply join_same_head_inj in H. by rewrite H.
Qed.

Lemma enumerate_from_index_ge {A} (k : nat) (l : list A) (i : nat) (x : A) :
  In (i, x) (enumerate_from k l) -> k <= i.
Proof.
  revert k; induction l as [|y l IH]; intros k; simpl; [tauto|].
  intros [[= -> _]|Hin]; [lia|]. apply IH in Hin. lia.
Qed.

End Names.

(** X1: the destination paths of one batch are pairwise distinct, whatever
    the prefix, the destination directory and the source names: two pairs
    at different indices never get the same destination. *)
Theorem destinations_pairwise_distinct (files : list string) (d p : string) :
  NoDup (map snd (generate_source_destination_pairs files d p)).
Proof.
  unfold generate_source_destination_pairs. rewrite map_map.
  generalize 0. induction files as [|s files IH]; intros k; simpl; constructor.
  - intros Hin. apply list_elem_of_In, in_map_iff in Hin as [[i t] [Heq Hin]].
    simpl in Heq. apply join_destination_inj in Heq as ->.
    apply enumerate_from_index_ge in Hin. lia.
  - apply IH.
Qed.

(** ** Where destinations land *)
Section Placement.

Lemma split_on_no_char (c : ascii) (s : string) :
  forall w, In w (split_on c s) -> ~ In c (list_ascii_of_string w).
Proof.
  induction s as [|x rest IH]; simpl; intros w Hw.
  - destruct Hw as [<-|[]]. simpl. tauto.
  - destruct (Ascii.eqb_spec x c) as [->|Hx].
    + destruct Hw as [<-|Hw]; [simpl; tauto|auto].
    + destruct (split_on c rest) as [|w0 ws] eqn:E.
      * destruct Hw as [<-|[]]. simpl. intros [?|[]]; congruence.
      * destruct Hw as [<-|Hw].
        -- simpl. intros [?|Hin]; [congruence|]. apply (IH w0); [left; done|done].
        -- apply IH. by right.
Qed.

Lemma last_opt_in {A} (l : list A) (x : A) : last_opt l = Some x -> In x l.
Proof.
  induction l as [|y l IH]; simpl; [done|].
  destruct l as [|z l']; [intros [= ->]; auto|]. intros H. right. by apply IH.
Qed.

Lemma file_name_no_slash (p n : string) :
  file_name p = Some n -> ~ In "/"%char (list_ascii_of_string n) /\ n <> "".
Proof.
  unfold file_name.
  destruct (last_opt _) as [c|] eqn:E; [|done].
  destruct (String.eqb c ".."); [done|]. intros [= <-].
  apply last_opt_in, filter_In in E as [Hin Hkeep].
  split; [by apply (split_on_no_char "/" p)|].
  intros ->. discriminate.
Qed.

Lemma extension_no_slash (p e : string) :
  extension p = Some e -> ~ In "/"%char (list_ascii_of_string e).
Proof.
  unfold extension. destruct (file_name p) as [f|] eqn:Hf; [|done].
  destruct (file_name_no_slash _ _ Hf) as [Hns _].
  unfold rsplit_file_at_dot. destruct (String.eqb f ".."); [done|].
  destruct (last_dot_split f) as [[b a]|] eqn:Hs; [|done].
  destruct (String.eqb b ""); [done|]. intros [= <-].
  apply last_split_spec in Hs as [-> _].
  rewrite list_ascii_of_string_app in Hns. simpl in Hns.
  intros Hin. apply Hns, in_or_app. right. by right.
Qed.

Lemma destination_name_no_slash (p : string) (i : nat) (s : string) :
  ~ In "/"%char (list_ascii_of_string p) ->
  ~ In "/"%char (list_ascii_of_string (destination_name p i s)).
Proof.
  intros Hp. unfold destination_name.
  rewrite !list_ascii_of_string_app. simpl.
  intros Hin. apply in_app_or in Hin as [Hin|[Heq|Hin]]; [done|discriminate|].
  apply in_app_or in Hin as [Hin|Hin].
  - by apply (pretty_no_char "/" pretty_N_char_not_slash i).
  - destruct (extension s) as [e|] eqn:He; simpl in Hin; [|done].
    destruct Hin as [Heq|Hin]; [discriminate|].
    apply (extension_no_slash s e He), (from_utf8_lossy_ascii "/"%char e ltac:(apply Nat.ltb_lt; reflexivity)).
    exact Hin.
Qed.

Lemma last_split_app (c : ascii) (a b : string) :
  ~ In c (list_ascii_of_string b) -> last_split c (a ++ String c b) = Some (a, b).
Proof.
  intros Hb. induction a as [|x a IH]; simpl.
  - by apply last_split_none_after_head.
  - rewrite IH. done.
Qed.

End Placement.

(** X2: with no [--prefix], the prefix is a file name, so it holds no
    separator; every destination is then [dst/name] with a separator-free
    [name]: it lies directly in the destination directory (when that path
    does not end in a separator, as a canonical non-root path does not). *)
Theorem default_prefix_stays_in_destination (args : Args) (p : string)
    (files : list string) (dst : string) (l : ascii)
    (Hpre : prefix args = None) (Hp : get_prefix args = Ok p)
    (Hdst : last_char dst = Some l) (Hl : l <> "/"%char) :
  forall i s t, nth_error (generate_source_destination_pairs files dst p) i = Some (s, t) ->
  exists n, t = (dst ++ "/" ++ n)%string /\ ~ In "/"%char (list_ascii_of_string n) /\
            dir_of t = dst.
Proof.
  unfold get_prefix in Hp. rewrite Hpre in Hp.
  destruct (file_name (source args)) as [fnm|] eqn:Hf; [|discriminate].
  injection Hp as <-. destruct (file_name_no_slash _ _ Hf) as [Hns0 _].
  assert (Hns : ~ In "/"%char (list_ascii_of_string (from_utf8_lossy fnm))).
  { intros Hin. apply Hns0.
    apply (from_utf8_lossy_ascii "/"%char fnm); [apply Nat.ltb_lt; reflexivity|exact Hin]. }
  set (pl := from_utf8_lossy fnm) in *. clearbody pl. clear Hns0.
  intros i s t H. rewrite generate_lookup in H.
  destruct (nth_error files i) as [s'|]; simpl in H; [|discriminate].
  injection H as <- <-.
  pose proof (destination_name_no_slash pl i s' Hns) as Hn.
  assert (Ht : join dst (destination_name pl i s')
               = (dst ++ "/" ++ destination_name pl i s')%string).
  { destruct (destination_name_head pl i s') as [r Hr].
    unfold join. rewrite Hr. rewrite <- Hr.
    assert (Hc : is_sep_byte (match pl with EmptyString => "_"%char | String c _ => c end) = false).
    { destruct pl as [|c0 r0]; [reflexivity|].
      unfold is_sep_byte. destruct (Ascii.eqb_spec c0 "/"); [|done].
      subst. exfalso. apply Hns. left. done. }
    rewrite Hc, Hdst.
    assert (Hl' : is_sep_byte l = false) by (unfold is_sep_byte; by apply Ascii.eqb_neq).
    by rewrite Hl'. }
  exists (destination_name pl i s'). split; [done|]. split; [done|].
  rewrite Ht. unfold dir_of.
  change ("/" ++ destination_name pl i s')%string
    with (String "/" (destination_name pl i s')).
  rewrite last_split_app by done.
  destruct (String.eqb_spec dst ""); [subst; discriminate|done].
Qed.

Lemma default_prefix_stays_in_destination_witness :
  prefix (sample_args false false) = None /\
  get_prefix (sample_args false false) = Ok "trip" /\
  last_char "/out" = Some "t"%char /\
  exists n, "/out/trip_0.JPG" = ("/out" ++ "/" ++ n)%string /\
            ~ In "/"%char (list_ascii_of_string n) /\ dir_of "/out/trip_0.JPG" = "/out".
Proof.
  split; [reflexivity|]. split; [reflexivity|]. split; [reflexivity|].
  apply (default_prefix_stays_in_destination (sample_args false false) "trip"
           ["/p/trip/photo.JPG"] "/out" "t"%char eq_refl eq_refl eq_refl)
    with (i := 0) (s := "/p/trip/photo.JPG"); [discriminate|].
  vm_compute. reflexivity.
Defined.

(** ** Transfers of a listed batch *)

Lemma move_images_transfers (fs : FS) (src dst : string) (c : bool) (p : string)
    (v d : bool) (files : list string) (lg : list record) :
  get_source_files fs src = (Ok files, lg) ->
  o_fs (move_images fs src dst c p v d)
  = fst (transfer_loop (select_op d c) v (if d then "[dry-run] " else "")
           (if c then "copy" else "move") fs
           (generate_source_destination_pairs files dst p)) /\
  o_log (move_images fs src dst c p v d)
  = (param_log src dst c p v d ++ lg ++
     snd (transfer_loop (select_op d c) v (if d then "[dry-run] " else "")
           (if c then "copy" else "move") fs
           (generate_source_destination_pairs files dst p)))%list.
Proof.
  intros Hl. unfold move_images. rewrite Hl.
  by destruct (transfer_loop _ _ _ _ _ _).
Qed.

(** ** What copying keeps *)
Section Keep.

(** [fs'] keeps every entry of [fs], its path resolution, and holds data for
    every inode [fs] holds data for. *)
Definition keeps (fs fs' : FS) : Prop :=
  (forall k v, fs_entries fs !! k = Some v -> fs_entries fs' !! k = Some v) /\
  fs_canon fs' = fs_canon fs /\
  (forall i, is_Some (fs_data fs !! i) -> is_Some (fs_data fs' !! i)).

Lemma keeps_refl (fs : FS) : keeps fs fs.
Proof. repeat split; auto. Qed.

Lemma keeps_trans (fs1 fs2 fs3 : FS) : keeps fs1 fs2 -> keeps fs2 fs3 -> keeps fs1 fs3.
Proof.
  intros (He1 & Hc1 & Hd1) (He2 & Hc2 & Hd2). split; [|split]; auto.
  by rewrite Hc2.
Qed.

Lemma keeps_read (fs fs' : FS) (q : string) :
  keeps fs fs' -> is_Some (read_path fs q) -> is_Some (read_path fs' q).
Proof.
  intros (He & Hc & Hd). unfold read_path.
  destruct (follow max_links fs q) as [[k [[i| |]|]]|e] eqn:Hq; try by intros [? [=]].
  rewrite (follow_extend fs fs' He Hc _ _ _ _ Hq). apply Hd.
Qed.

Lemma keeps_set_data (fs : FS) (j : nat) (x : string) (m : gmap nat string) :
  (forall i, is_Some (fs_data fs !! i) -> is_Some (m !! i)) ->
  keeps fs (set_data fs (<[j := x]> m)).
Proof.
  intros Hm. split; [|split]; [done|done|]. intros i Hi. cbn [fs_data set_data].
  destruct (decide (i = j)) as [->|Hne]; [rewrite lookup_insert_eq; by eexists|].
  rewrite lookup_insert_ne by done. auto.
Qed.

Lemma write_copy_keeps (fs : FS) (i j : nat) (d : string) : keeps fs (fst (write_copy fs i j d)).
Proof.
  unfold write_copy. destruct (_ && _); simpl.
  - apply keeps_set_data. auto.
  - apply keeps_set_data. intros k Hk. destruct (decide (k = j)) as [->|Hne];
      [rewrite lookup_insert_eq; by eexists|by rewrite lookup_insert_ne].
Qed.

Lemma fs_copy_keeps (fs : FS) (s t : string) : keeps fs (fst (fs_copy fs s t)).
Proof.
  unfold fs_copy.
  destruct (follow max_links fs s) as [[ks [[i| |]|]]|e]; try apply keeps_refl.
  destruct (follow max_links fs t) as [[kt [[j| |]|]]|e] eqn:Ht; try apply keeps_refl.
  - destruct (bool_decide _); [apply keeps_refl|apply write_copy_keeps].
  - destruct (bool_decide _); [|apply keeps_refl].
    eapply keeps_trans; [|apply write_copy_keeps].
    apply follow_result in Ht.
    split; [|split]; [|done|].
    + intros k v Hk. cbn [fs_entries set_entries set_data].
      rewrite lookup_insert_ne; [done|]. intros ->. congruence.
    + intros k Hk. cbn [fs_data set_data set_entries].
      destruct (decide (k = fresh (dom (fs_data fs)))) as [->|Hne];
        [rewrite lookup_insert_eq; by eexists|by rewrite lookup_insert_ne].
Qed.

Lemma transfer_loop_keeps (op : transfer_op) (v : bool) (dp n : string)
    (Hop : forall fs s t, keeps fs (fst (op fs s t))) (pairs : list (string * string)) :
  forall fs, keeps fs (fst (transfer_loop op v dp n fs pairs)).
Proof.
  induction pairs as [|[s t] rest IH]; intros fs; simpl; [apply keeps_refl|].
  specialize (Hop fs s t).
  destruct (op fs s t) as [fs1 r]. simpl in Hop.
  destruct (transfer_loop op v dp n fs1 rest) as [fs2 lg2] eqn:Hr. simpl.
  eapply keeps_trans; [exact Hop|]. change fs2 with (fst (fs2, lg2)). rewrite <- Hr. apply IH.
Qed.

End Keep.

(** X5: in copy mode (dry run or not) every path that led to a file before
    the run still leads to a file after it: [fs::copy] only creates entries
    where the destination lookup found none and writes data, so no entry
    and no file is ever removed. *)
Theorem copy_mode_never_deletes (fs : FS) (src dst p : string) (v d : bool) (q : string)
    (Hq : is_Some (read_path fs q)) :
  is_Some (read_path (o_fs (move_images fs src dst true p v d)) q).
Proof.
  apply (keeps_read fs); [|done].
  unfold move_images. destruct (get_source_files fs src) as [[files|e] lg]; [|apply keeps_refl].
  pose proof (transfer_loop_keeps (select_op d true) v (if d then "[dry-run] " else "") "copy")
    as H.
  destruct (transfer_loop _ _ _ _ fs _) as [fs' lg'] eqn:Ht. simpl.
  change fs' with (fst (fs', lg')). rewrite <- Ht. apply H.
  intros fs0 s0 t0. unfold select_op. destruct d; [apply keeps_refl|apply fs_copy_keeps].
Qed.

Lemma copy_mode_never_deletes_witness :
  is_Some (read_path sample_fs "/p/trip/README") /\
  is_Some (read_path (o_fs (move_images sample_fs "/p/trip" "/out" true "trip" false false))
             "/p/trip/README").
Proof.
  assert (H : is_Some (read_path sample_fs "/p/trip/README")) by (eexists; vm_compute; reflexivity).
  split; [exact H|].
  exact (copy_mode_never_deletes sample_fs "/p/trip" "/out" "trip" false false _ H).
Defined.

(** ** Failed runs and output *)

(** X7: whenever [main] returns an error, the file system is exactly as it
    was: every fatal error (unresolvable path, missing prefix, unreadable
    source directory) comes before the first transfer, and a failed transfer
    never turns the run into an error. *)
Theorem failed_run_changes_nothing (fs : FS) (args : Args) (e : main_error)
    (H : o_result (main fs args) = Err e) :
  o_fs (main fs args) = fs.
Proof.
  revert H. unfold main.
  destruct (canonicalize fs (source args)) as [src|]; [|done].
  destruct (canonicalize fs (destination args)) as [dst|]; [|done].
  destruct (get_prefix args) as [p|]; [|done]. cbn [o_result o_fs].
  unfold move_images.
  destruct (get_source_files fs src) as [[files|e'] lg]; [|done].
  destruct (transfer_loop _ _ _ _ _ _). discriminate.
Qed.

Lemma failed_run_changes_nothing_witness :
  o_result (main missing_fs (sample_args false false)) = Err (CanonicalizeSource NotFound) /\
  o_fs (main missing_fs (sample_args false false)) = missing_fs.
Proof.
  split; [reflexivity|].
  apply (failed_run_changes_nothing missing_fs (sample_args false false)
           (CanonicalizeSource NotFound)).
  reflexivity.
Defined.

Lemma get_source_files_levels (fs : FS) (src : string) :
  forall lv m, In (lv, m) (snd (get_source_files fs src)) -> lv = Debug \/ lv = Warn.
Proof.
  unfold get_source_files. destruct (read_dir fs src) as [entries|e]; simpl; [|tauto].
  destruct (filter_map_entries src entries) as [ps lg] eqn:H. simpl.
  exact (proj2 (proj2 (filter_map_entries_spec _ _ _ _ H))).
Qed.

Lemma transfer_loop_quiet (op : transfer_op) (dp n : string) (pairs : list (string * string)) :
  forall fs r, In r (snd (transfer_loop op false dp n fs pairs)) -> fst r <> Stdout.
Proof.
  induction pairs as [|[s t] rest IH]; intros fs r; simpl; [tauto|].
  destruct (op fs s t) as [fs1 [u|e]];
    destruct (transfer_loop op false dp n _ rest) as [fs2 lg2] eqn:Hr; simpl;
    (intros [<-|[<-|Hin]]; [discriminate|discriminate|]);
    change lg2 with (snd (fs2, lg2)) in Hin; rewrite <- Hr in Hin; by eapply IH.
Qed.

(** X8: without [--verbose] nothing is printed on standard output: every
    report goes to the log at debug, warning or error level. *)
Theorem quiet_run_prints_nothing (fs : FS) (args : Args)
    (Hv : verbose args = false) :
  forall r, In r (o_log (main fs args)) -> fst r <> Stdout.
Proof.
  unfold main.
  destruct (canonicalize fs (source args)) as [src|]; [|done].
  destruct (canonicalize fs (destination args)) as [dst|]; [|done].
  destruct (get_prefix args) as [p|]; [|done]. cbn [o_log].
  unfold move_images. rewrite Hv.
  pose proof (get_source_files_levels fs src) as Hlv.
  destruct (get_source_files fs src) as [[files|e] lg]; cbn [o_log snd] in *.
  - pose proof (transfer_loop_quiet (select_op (dry_run args) (copy args))
                  (if dry_run args then "[dry-run] " else "")
                  (if copy args then "copy" else "move") 
                  (generate_source_destination_pairs files dst p) fs) as Hq.
    destruct (transfer_loop _ _ _ _ _ _) as [fs' lg']. cbn [o_log snd] in *.
    intros [lv m] Hr. apply in_app_or in Hr as [Hr|Hr].
    + apply param_log_msgs in Hr as [-> _]. discriminate.
    + apply in_app_or in Hr as [Hr|Hr]; [|by apply Hq].
      destruct (Hlv _ _ Hr) as [->| ->]; discriminate.
  - intros [lv m] Hr. apply in_app_or in Hr as [Hr|Hr].
    + apply param_log_msgs in Hr as [-> _]. discriminate.
    + destruct (Hlv _ _ Hr) as [->| ->]; discriminate.
Qed.

Lemma quiet_run_prints_nothing_witness :
  verbose (sample_args false false) = false /\
  ~ In (Stdout, MsgOp "" "move" "/p/trip/photo.JPG" "/out/trip_0.JPG")
       (o_log (main sample_fs (sample_args false false))).
Proof.
  split; [reflexivity|]. intros Hin.
  exact (quiet_run_prints_nothing sample_fs (sample_args false false) eq_refl _ Hin eq_refl).
Defined.

Lemma filter_stdout_report (dp n : string) (pairs : list (string * string))
    (outs : list (result unit io_error)) :
  List.filter is_stdout (concat (zip_with (report true dp n) pairs outs))
  = concat (zip_with (fun '(s, t) (out : result unit io_error) =>
                        match out with
                        | Ok _ => [(Stdout, MsgOp dp n s t)]
                        | Err _ => []
                        end) pairs outs).
Proof.
  revert outs. induction pairs as [|[s t] rest IH]; intros [|out outs]; try done.
  cbn [zip_with concat]. rewrite List.filter_app, IH. by destruct out.
Qed.

Lemma filter_stdout_none (l : list record) :
  (forall lv m, In (lv, m) l -> lv <> Stdout) -> List.filter is_stdout l = [].
Proof.
  induction l as [|[lv m] l IH]; intros H; [done|].
  assert (Hrest : forall lv' m', In (lv', m') l -> lv' <> Stdout)
    by (intros lv' m' Hin; apply H with m'; by right).
  destruct lv; simpl; try (by apply IH).
  exfalso. by apply (H Stdout m); [left|].
Qed.



Example ex_verbose_stdout :
  List.filter is_stdout (o_log (move_images vanishing_fs "/p/trip" "/out" false "trip" true false))
  = [(Stdout, MsgOp "" "move" "/p/trip/a.jpg" "/out/trip_0.jpg");
     (Stdout, MsgOp "" "move" "/p/trip/c.jpg" "/out/trip_2.jpg")].
Proof. vm_compute. reflexivity. Qed.

(** ** A source path that ends in [..] *)

Lemma split_on_nonempty (c : ascii) (s : string) : split_on c s <> [].
Proof.
  induction s as [|x s IH]; cbn [split_on]; [discriminate|].
  destruct (Ascii.eqb x c); [discriminate|].
  destruct (split_on c s); discriminate.
Qed.

Lemma split_on_app_sep (c : ascii) (a b : string) :
  split_on c (a ++ String c b) = (split_on c a ++ split_on c b)%list.
Proof.
  induction a as [|x a IH].
  - change ("" ++ String c b) with (String c b). cbn [split_on].
    by rewrite Ascii.eqb_refl.
  - change (String x a ++ String c b) with (String x (a ++ String c b)).
    cbn [split_on]. rewrite IH.
    destruct (Ascii.eqb x c); [reflexivity|].
    destruct (split_on c a) eqn:E; [by destruct (split_on_nonempty c a)|].
    reflexivity.
Qed.

Lemma last_opt_app_r {A} (l m : list A) : m <> [] -> last_opt (l ++ m)%list = last_opt m.
Proof.
  induction l as [|a l IH]; intros Hm; [done|]. cbn [app last_opt].
  destruct (l ++ m)%list as [|y r] eqn:E.
  - apply app_eq_nil in E as [_ ->]. contradiction.
  - by apply IH.
Qed.

Lemma file_name_parent (d : string) : file_name (d ++ "/..") = None.
Proof.
  unfold file_name. change "/.." with (String "/" "..").
  rewrite split_on_app_sep, List.filter_app, last_opt_app_r.
  - vm_compute. reflexivity.
  - vm_compute. discriminate.
Qed.

(** X11: without [--prefix], a source typed as [..] or ending in [/..] has
    no file name, so once both paths have been canonicalized the run stops
    with the prefix error: nothing is logged and no file is touched, even
    though the directory exists. *)
Theorem parent_source_needs_prefix (fs : FS) (args : Args) (src dst : string)
    (Hpre : prefix args = None)
    (Hsrc : source args = ".." \/ exists d, source args = (d ++ "/..")%string)
    (Hcs : canonicalize fs (source args) = Ok src)
    (Hcd : canonicalize fs (destination args) = Ok dst) :
  main fs args = Outcome (Err (PrefixError prefix_error_msg)) fs [].
Proof.
  assert (Hf : file_name (source args) = None).
  { destruct Hsrc as [-> | [d ->]]; [reflexivity|]. apply file_name_parent. }
  unfold main. rewrite Hcs, Hcd. unfold get_prefix. by rewrite Hpre, Hf.
Qed.

Lemma parent_source_needs_prefix_witness :
  prefix parent_args = None /\
  canonicalize parent_fs (source parent_args) = Ok "/p" /\
  canonicalize parent_fs (destination parent_args) = Ok "/out" /\
  main parent_fs parent_args = Outcome (Err (PrefixError prefix_error_msg)) parent_fs [].
Proof.
  split; [reflexivity|]. split; [vm_compute; reflexivity|].
  split; [vm_compute; reflexivity|].
  apply (parent_source_needs_prefix parent_fs parent_args "/p" "/out" eq_refl).
  - right. exists "photos". reflexivity.
  - vm_compute. reflexivity.
  - vm_compute. reflexivity.
Defined.
